(** * goworker-retry: exponential backoff for goworker jobs

    A shallow embedding of [backoff.go] (package [retry]) and the
    properties of its retry orchestration.

    Layout:
    - Go primitives used by the package: [int] arithmetic, [strings],
      [fmt] verbs, [crypto/sha1];
    - the external collaborators (the Redis connection of goworker and
      the go-resque enqueue calls) as an explicit world with a fault
      oracle;
    - the package itself: [backoff], [NewBackoff], [WorkerFunc],
      [retryDelay], [retryKey], [retryIdentifier];
    - the theorems. *)

From Stdlib Require Import ZArith Lia List Ascii String DecimalString.
From stdpp Require Import base option list strings gmap fin_maps.

Local Open Scope string_scope.
Local Open Scope Z_scope.

(* ===================================================================== *)
(** ** Go's [int] (64-bit, two's complement) *)
(* ===================================================================== *)

Module GoInt.

Definition min_int : Z := - 2 ^ 63.
Definition max_int : Z := 2 ^ 63 - 1.

(** Reduction of a mathematical integer to its 64-bit signed
    representative: what Go keeps after an overflowing operation. *)
Definition wrap (z : Z) : Z := (z + 2 ^ 63) mod 2 ^ 64 - 2 ^ 63.

Definition add (x y : Z) : Z := wrap (x + y).
Definition mul (x y : Z) : Z := wrap (x * y).

Definition in_range (z : Z) : Prop := min_int <= z <= max_int.

End GoInt.

(* ===================================================================== *)
(** ** Package [strings] *)
(* ===================================================================== *)

Module GoStrings.

(** [strings.Join(elems, sep)] *)
Fixpoint Join (elems : list string) (sep : string) : string :=
  match elems with
  | [] => ""
  | [s] => s
  | s :: rest => s +:+ sep +:+ Join rest sep
  end.

(** [strings.Replace(s, " ", "", -1)]: the only use in the package
    replaces every one-byte space by the empty string. *)
Fixpoint RemoveSpaces (s : string) : string :=
  match s with
  | EmptyString => EmptyString
  | String c rest =>
      if Ascii.eqb c " "%char then RemoveSpaces rest
      else String c (RemoveSpaces rest)
  end.

(** [[]byte(s)]: a Go string is its sequence of bytes. *)
Fixpoint bytes (s : string) : list Z :=
  match s with
  | EmptyString => []
  | String c rest => Z.of_N (N_of_ascii c) :: bytes rest
  end.

End GoStrings.

(* ===================================================================== *)
(** ** Package [crypto/sha1] (FIPS 180-4, SHA-1) *)
(* ===================================================================== *)

Module sha1.

Definition w32 (x : Z) : Z := x mod 2 ^ 32.
Definition add32 (x y : Z) : Z := w32 (x + y).
Definition not32 (x : Z) : Z := 2 ^ 32 - 1 - x.
Definition rotl (n x : Z) : Z :=
  w32 (Z.lor (Z.shiftl x n) (Z.shiftr x (32 - n))).

(** Big-endian encodings. *)
Definition be_bytes (width : nat) (x : Z) : list Z :=
  map (fun i => Z.shiftr x (8 * Z.of_nat i) mod 256) (rev (seq 0 width)).

Definition be_word (bs : list Z) : Z :=
  fold_left (fun acc b => acc * 256 + b) bs 0.

(** Message padding: a [0x80] byte, zeros up to 56 mod 64, then the
    bit length on 8 bytes. *)
Definition pad (msg : list Z) : list Z :=
  let len := Z.of_nat (length msg) in
  msg ++ [128] ++ repeat 0 (Z.to_nat ((55 - len) mod 64))
      ++ be_bytes 8 (8 * len).

(** The words of a padded message, four bytes at a time. *)
Fixpoint words (fuel : nat) (bs : list Z) : list Z :=
  match fuel, bs with
  | S fuel', b0 :: b1 :: b2 :: b3 :: rest =>
      be_word [b0; b1; b2; b3] :: words fuel' rest
  | _, _ => []
  end.

Fixpoint blocks (fuel : nat) (ws : list Z) : list (list Z) :=
  match fuel, ws with
  | S fuel', _ :: _ => firstn 16 ws :: blocks fuel' (skipn 16 ws)
  | _, _ => []
  end.

(** Message schedule, most recent word first: [rev_w] holds
    [w(t-1), w(t-2), ...]. *)
Fixpoint extend (n : nat) (rev_w : list Z) : list Z :=
  match n with
  | O => rev_w
  | S n' =>
      let x := Z.lxor (Z.lxor (nth 2 rev_w 0) (nth 7 rev_w 0))
                      (Z.lxor (nth 13 rev_w 0) (nth 15 rev_w 0)) in
      extend n' (rotl 1 x :: rev_w)
  end.

Definition schedule (block : list Z) : list Z :=
  rev (extend 64 (rev block)).

Record state := State { ha : Z; hb : Z; hc : Z; hd : Z; he : Z }.

Definition init : state :=
  State 0x67452301 0xEFCDAB89 0x98BADCFE 0x10325476 0xC3D2E1F0.

Definition f_k (t : nat) (b c d : Z) : Z * Z :=
  if (t <? 20)%nat then
    (Z.lor (Z.land b c) (Z.land (not32 b) d), 0x5A827999)
  else if (t <? 40)%nat then
    (Z.lxor (Z.lxor b c) d, 0x6ED9EBA1)
  else if (t <? 60)%nat then
    (Z.lor (Z.lor (Z.land b c) (Z.land b d)) (Z.land c d), 0x8F1BBCDC)
  else
    (Z.lxor (Z.lxor b c) d, 0xCA62C1D6).

Definition round (t : nat) (w : Z) (s : state) : state :=
  let '(f, k) := f_k t (hb s) (hc s) (hd s) in
  let temp :=
    add32 (add32 (add32 (add32 (rotl 5 (ha s)) f) (he s)) k) w in
  State temp (ha s) (rotl 30 (hb s)) (hc s) (hd s).

Fixpoint rounds (t : nat) (ws : list Z) (s : state) : state :=
  match ws with
  | [] => s
  | w :: ws' => rounds (S t) ws' (round t w s)
  end.

Definition compress (h : state) (block : list Z) : state :=
  let s := rounds 0 (schedule block) h in
  State (add32 (ha h) (ha s)) (add32 (hb h) (hb s))
        (add32 (hc h) (hc s)) (add32 (hd h) (hd s))
        (add32 (he h) (he s)).

(** [h := sha1.New(); h.Write(msg); h.Sum(nil)]: the 20-byte digest. *)
Definition Sum (msg : list Z) : list Z :=
  let p := pad msg in
  let ws := words (length p) p in
  let h := fold_left compress (blocks (length ws) ws) init in
  be_bytes 4 (ha h) ++ be_bytes 4 (hb h) ++ be_bytes 4 (hc h)
    ++ be_bytes 4 (hd h) ++ be_bytes 4 (he h).

End sha1.

(* ===================================================================== *)
(** ** Job arguments and package [fmt] *)
(* ===================================================================== *)

(** The [interface{}] values a job receives.  goworker decodes them from
    the JSON payload of the job; the embedding covers [nil], booleans,
    strings, integers and (nested) slices of these. *)
#[local] Set Warnings "-register-all".
Inductive value : Type :=
| VNil
| VBool (b : bool)
| VInt (n : Z)
| VString (s : string)
| VSlice (elems : list value).

(** A Go [error], observed through [err.Error()]. *)
Definition error : Type := string.

Module fmt.

(** ["%d"] on an [int]. *)
Definition Sprintf_d (z : Z) : string :=
  NilZero.string_of_int (Z.to_int z).

Definition hex_digit (d : Z) : ascii :=
  ascii_of_N (Z.to_N (if d <? 10 then 48 + d else 87 + d)).

(** ["%x"] on a byte slice: two lower-case digits per byte. *)
Fixpoint Sprintf_x (bs : list Z) : string :=
  match bs with
  | [] => EmptyString
  | b :: rest =>
      String (hex_digit (b / 16))
        (String (hex_digit (b mod 16)) (Sprintf_x rest))
  end.

(** ["%v"] on an argument value. *)
Fixpoint Sprintf_v (v : value) : string :=
  match v with
  | VNil => "<nil>"
  | VBool true => "true"
  | VBool false => "false"
  | VInt n => Sprintf_d n
  | VString s => s
  | VSlice elems =>
      "[" +:+ GoStrings.Join (map Sprintf_v elems) " " +:+ "]"
  end.

End fmt.

(** [time.Second], in nanoseconds: the unit of [time.Duration]. *)
Definition Second : Z := 1000000000.

(* ===================================================================== *)
(** ** The collaborators: Redis connection and resque queue *)
(* ===================================================================== *)

(** The world has no clock.  A counter holds its integer and the
    time-to-live last given to it; a scenario of several invocations
    threads the store from one invocation to the next, which is what a
    redelivery arriving within the time-to-live observes. *)
Record entry := Entry { count : Z; ttl : option Z }.

(** The four commands the package sends with [conn.Do]. *)
Inductive command : Type :=
| SETNX (key : string) (v : Z)
| INCR (key : string)
| EXPIRE (key : string) (seconds : Z)
| DEL (key : string).

(** A job accepted by the queue: [resque.Enqueue] and
    [resque.EnqueueIn] (the delay is a [time.Duration]). *)
Inductive submission : Type :=
| Enqueued (queue class : string) (args : list value)
| EnqueuedIn (delay : Z) (queue class : string) (args : list value).

(** What an invocation did, in order: commands sent on the connection
    and executions of the wrapped job. *)
Inductive event : Type :=
| Sent (c : command)
| Ran (queue : string) (args : list value).

Record world := World {
  redis : gmap string entry;
  resque : list submission;
  trace : list event
}.

(** Which calls to the collaborators fail during one invocation, and
    with which error.  A failed call has no effect on the store or the
    queue. *)
Record faults := Faults {
  GetConn_fault : option error;
  Do_fault : command -> option error;
  resque_fault : submission -> option error
}.

Definition no_faults : faults :=
  Faults None (fun _ => None) (fun _ => None).

Inductive result (A : Type) : Type :=
| Ok (a : A)
| Err (e : error).
Arguments Ok {A} a.
Arguments Err {A} e.

Module Redis.

Definition out_of_range : error :=
  "ERR value is not an integer or out of range".

Definition overflow : error :=
  "ERR increment or decrement would overflow".

(** The error reply of an [INCR] that cannot be done: the count is the
    largest signed 64-bit integer, or it is no such integer at all. *)
Definition INCR_error (v : Z) : error :=
  if v =? GoInt.max_int then overflow else out_of_range.

(** The effect of a command on the store, with its integer reply.
    [SETNX] writes only an absent key; [INCR] starts an absent key at
    0, keeps the time-to-live and refuses to leave the signed 64-bit
    range; [EXPIRE] with a non-positive time deletes the key. *)
Definition exec (c : command) (s : gmap string entry)
  : result Z * gmap string entry :=
  match c with
  | SETNX k v =>
      match s !! k with
      | Some _ => (Ok 0, s)
      | None => (Ok 1, <[k := Entry v None]> s)
      end
  | INCR k =>
      let e := default (Entry 0 None) (s !! k) in
      if (GoInt.min_int <=? count e) && (count e <? GoInt.max_int)
      then (Ok (count e + 1), <[k := Entry (count e + 1) (ttl e)]> s)
      else (Err (INCR_error (count e)), s)
  | EXPIRE k seconds =>
      match s !! k with
      | Some e =>
          if seconds <=? 0 then (Ok 1, delete k s)
          else (Ok 1, <[k := Entry (count e) (Some seconds)]> s)
      | None => (Ok 0, s)
      end
  | DEL k =>
      match s !! k with
      | Some _ => (Ok 1, delete k s)
      | None => (Ok 0, s)
      end
  end.

End Redis.

Definition log (ev : event) (w : world) : world :=
  World (redis w) (resque w) (trace w ++ [ev]).

(** [goworker.GetConn()] *)
Definition GetConn (fl : faults) : option error := GetConn_fault fl.

(** [conn.Do(...)]: the command is sent; unless the call fails it takes
    effect in the store.  [redis.Int] of an integer reply is that
    integer. *)
Definition Do (fl : faults) (c : command) (w : world) : result Z * world :=
  let w := log (Sent c) w in
  match Do_fault fl c with
  | Some err => (Err err, w)
  | None =>
      let '(reply, s) := Redis.exec c (redis w) in
      (reply, World s (resque w) (trace w))
  end.

Definition submit (fl : faults) (sub : submission) (w : world)
  : option error * world :=
  match resque_fault fl sub with
  | Some err => (Some err, w)
  | None => (None, World (redis w) (resque w ++ [sub]) (trace w))
  end.

(** [resque.Enqueue(conn.Conn, queue, class, args...)] *)
Definition Enqueue (fl : faults) (queue class : string) (args : list value)
  : world -> option error * world :=
  submit fl (Enqueued queue class args).

(** [resque.EnqueueIn(conn.Conn, delay, queue, class, args...)] *)
Definition EnqueueIn (fl : faults) (delay : Z) (queue class : string)
    (args : list value) : world -> option error * world :=
  submit fl (EnqueuedIn delay queue class args).

(* ===================================================================== *)
(** ** Package [retry] *)
(* ===================================================================== *)

Record backoff := Backoff {
  jobName : string;
  worker : string -> list value -> option error;
  RetryLimit : Z;
  BackoffStrategy : list Z
}.

Definition NewBackoff (jobName : string)
    (workerFunc : string -> list value -> option error) : backoff :=
  let strategy := [0; 60; 600; 3600; 10800; 21600] in
  Backoff jobName workerFunc (Z.of_nat (length strategy)) strategy.

(** Indexing of a slice, [s[i]]: [None] stands for the run-time panic
    of an index out of range. *)
Definition index (s : list Z) (i : Z) : option Z :=
  if (0 <=? i) && (i <? Z.of_nat (length s)) then s !! Z.to_nat i
  else None.

Definition retryDelay (eb : backoff) (attempt : Z) : option Z :=
  let len := Z.of_nat (length (BackoffStrategy eb)) in
  let attempt := if attempt >? len - 1 then len - 1 else attempt in
  index (BackoffStrategy eb) attempt.

Definition retryIdentifier (args : list value) : string :=
  let params := map fmt.Sprintf_v args in
  let bs := sha1.Sum (GoStrings.bytes (GoStrings.Join params "-")) in
  let hash := fmt.Sprintf_x bs in
  GoStrings.RemoveSpaces hash.

Definition retryKey (eb : backoff) (args : list value) : string :=
  let parts := ["resque"; "resque-retry"; jobName eb; retryIdentifier args] in
  GoStrings.Join parts ":".

(** How one invocation ends: it returns ([None] for a [nil] error) or
    it panics. *)
Inductive outcome : Type :=
| Returned (err : option error)
| Panicked.

(** The error of the give-up branch. *)
Definition FailedAfter (retryAttempt : Z) (err : error) : error :=
  "Failed after " +:+ fmt.Sprintf_d (GoInt.add retryAttempt 1)
    +:+ " attempts: " +:+ err.

(** The function returned by [eb.WorkerFunc()], applied to [queue] and
    [args] in world [w]. *)
Definition WorkerFunc (eb : backoff) (fl : faults) (queue : string)
    (args : list value) (w : world) : outcome * world :=
  match GetConn fl with
  | Some err => (Returned (Some err), w)
  | None =>
  let retryKey := retryKey eb args in
  (* Create the retry key if not exists *)
  let '(r, w) := Do fl (SETNX retryKey (-1)) w in
  match r with
  | Err err => (Returned (Some err), w)
  | Ok _ =>
  (* Increment the attempt we're on *)
  let '(r, w) := Do fl (INCR retryKey) w in
  match r with
  | Err err => (Returned (Some err), w)
  | Ok retryAttempt =>
  let err := worker eb queue args in
  let w := log (Ran queue args) w in
  match retryDelay eb retryAttempt with
  | None => (Panicked, w)
  | Some d =>
  let '(_, w) := Do fl (EXPIRE retryKey (GoInt.add d 3600)) w in
  match err with
  | None =>
      (* Success, just clear the retry key *)
      let '(_, w) := Do fl (DEL retryKey) w in
      (Returned None, w)
  | Some err =>
      if retryAttempt >=? RetryLimit eb then
        (* give up and return the err *)
        let '(_, w) := Do fl (DEL retryKey) w in
        (Returned (Some (FailedAfter retryAttempt err)), w)
      else
        (* Schedule the retry attempt *)
        match retryDelay eb retryAttempt with
        | None => (Panicked, w)
        | Some seconds =>
            let '(err, w) :=
              if seconds <=? 0 then
                Enqueue fl queue (jobName eb) args w
              else
                let delay := GoInt.mul seconds Second in
                EnqueueIn fl delay queue (jobName eb) args w in
            match err with
            | Some err => (Returned (Some err), w)
            | None => (Returned None, w)
            end
        end
  end end end end end.

(** [n] successive invocations on the same queue and arguments. *)
Fixpoint calls (n : nat) (eb : backoff) (fl : faults) (queue : string)
    (args : list value) (w : world) : list outcome * world :=
  match n with
  | O => ([], w)
  | S n' =>
      let '(o, w1) := WorkerFunc eb fl queue args w in
      let '(os, w2) := calls n' eb fl queue args w1 in
      (o :: os, w2)
  end.

Definition empty_world : world := World ∅ [] [].

(* ===================================================================== *)
(** ** Vocabulary of the statements *)
(* ===================================================================== *)

(** The attempt number of an invocation: the reply of [INCR] when the
    connection, the [SETNX] and the [INCR] all succeed, and otherwise
    the error that stops the invocation. *)
Definition attempt (eb : backoff) (fl : faults) (args : list value)
    (w : world) : result Z :=
  match GetConn fl with
  | Some err => Err err
  | None =>
      let '(r, w1) := Do fl (SETNX (retryKey eb args) (-1)) w in
      match r with
      | Err err => Err err
      | Ok _ => fst (Do fl (INCR (retryKey eb args)) w1)
      end
  end.

(** The world once the counter has been created and incremented. *)
Definition counted (eb : backoff) (fl : faults) (args : list value)
    (w : world) : world :=
  snd (Do fl (INCR (retryKey eb args))
         (snd (Do fl (SETNX (retryKey eb args) (-1)) w))).

(** The resubmission that a delay of [seconds] asks of the queue. *)
Definition resubmission (eb : backoff) (queue : string) (args : list value)
    (seconds : Z) : submission :=
  if seconds <=? 0 then Enqueued queue (jobName eb) args
  else EnqueuedIn (GoInt.mul seconds Second) queue (jobName eb) args.

(** The counter of [key] stands at [v]; an absent key stands at the
    baseline -1 that [SETNX] would give it. *)
Definition counter_at (s : gmap string entry) (key : string) (v : Z) : Prop :=
  match s !! key with
  | Some en => count en = v
  | None => v = -1
  end.



(** An invocation stopped by [e] before the job: it returns [e], the
    job has not run (the trace gains no execution) and the queue is
    untouched. *)
Definition stopped_before_job (eb : backoff) (fl : faults) (queue : string)
    (args : list value) (w : world) (e : error) : Prop :=
  let r := WorkerFunc eb fl queue args w in
  fst r = Returned (Some e)
  /\ (forall q a, Ran q a ∈ trace (snd r) -> Ran q a ∈ trace w)
  /\ resque (snd r) = resque w.

(** Concrete inputs for the examples: a job that always fails with
    ["boom"], and one that succeeds. *)
Definition failing_job : backoff := NewBackoff "Job" (fun _ _ => Some "boom").
Definition passing_job : backoff := NewBackoff "Job" (fun _ _ => None).

Definition queue_down : faults :=
  Faults None (fun _ => None) (fun _ => Some "queue down").

Definition store_down : faults :=
  Faults None (fun _ => Some "store down") (fun _ => None).




(** The canonical string of an argument list: what is hashed. *)
Definition canonical (args : list value) : string :=
  GoStrings.Join (map fmt.Sprintf_v args) "-".

(** The resubmissions of the default schedule, in order. *)
Definition default_resubmissions (jobName queue : string)
    (args : list value) : list submission :=
  [ Enqueued queue jobName args;
    EnqueuedIn (60 * Second) queue jobName args;
    EnqueuedIn (600 * Second) queue jobName args;
    EnqueuedIn (3600 * Second) queue jobName args;
    EnqueuedIn (10800 * Second) queue jobName args;
    EnqueuedIn (21600 * Second) queue jobName args ].

(** The reading of "a job that always fails is resubmitted exactly L-1
    times before its terminal failure", for a backoff [eb] started on a
    fresh world: whenever the [n]-th call is the first to return an
    error, the queue has accepted [L - 1] resubmissions. *)
Definition resubmitted_Lminus1_times (eb : backoff) (queue : string)
    (args : list value) : Prop :=
  forall n e w',
    calls (S n) eb no_faults queue args empty_world
      = ((repeat (Returned None) n ++ [Returned (Some e)])%list, w') ->
    length (resque w') = (length (BackoffStrategy eb) - 1)%nat.

(** The reading of "distinct argument lists have distinct identities". *)
Definition identities_distinct : Prop :=
  forall args1 args2 : list value,
    args1 <> args2 -> retryIdentifier args1 <> retryIdentifier args2.

(** The key a command addresses. *)
Definition command_key (c : command) : string :=
  match c with
  | SETNX k _ | INCR k | EXPIRE k _ | DEL k => k
  end.

(** The count that [INCR] starts from once [SETNX] has run: the stored
    count, or the baseline -1 for an absent key. *)
Definition standing (s : gmap string entry) (key : string) : Z :=
  match s !! key with
  | Some en => count en
  | None => -1
  end.

(** Case analysis on a hexadecimal digit value. *)
Ltac enum16 d H :=
  let E := fresh "E" in
  assert (d = 0 \/ d = 1 \/ d = 2 \/ d = 3 \/ d = 4 \/ d = 5 \/ d = 6
          \/ d = 7 \/ d = 8 \/ d = 9 \/ d = 10 \/ d = 11 \/ d = 12
          \/ d = 13 \/ d = 14 \/ d = 15) as E by lia;
  clear H;
  repeat (destruct E as [E|E]; [subst d|]); [..|subst d].

(* ===================================================================== *)
(** ** [retryDelay] *)
(* ===================================================================== *)

Lemma index_in_range (s : list Z) (i : Z) :
  0 <= i < Z.of_nat (length s) -> index s i = s !! Z.to_nat i.
Proof.
  intros Hi. unfold index.
  destruct (Z.leb_spec 0 i); [|lia].
  destruct (Z.ltb_spec i (Z.of_nat (length s))); [reflexivity|lia].
Qed.

Lemma index_out_of_range (s : list Z) (i : Z) :
  i < 0 \/ Z.of_nat (length s) <= i -> index s i = None.
Proof.
  intros Hi. unfold index.
  destruct (Z.leb_spec 0 i); [|reflexivity].
  destruct (Z.ltb_spec i (Z.of_nat (length s))); [lia|reflexivity].
Qed.

Section RetryDelay.

Variable eb : backoff.
Local Abbreviation len := (Z.of_nat (length (BackoffStrategy eb))).

Lemma retryDelay_valid (attempt : Z) :
  0 <= attempt <= len - 1 ->
  retryDelay eb attempt = BackoffStrategy eb !! Z.to_nat attempt.
Proof.
  intros Ha. unfold retryDelay.
  destruct (Z.gtb_spec attempt (len - 1)); [lia|].
  apply index_in_range. lia.
Qed.

Lemma retryDelay_clamped (attempt : Z) :
  len - 1 < attempt -> retryDelay eb attempt = last (BackoffStrategy eb).
Proof.
  intros Ha. unfold retryDelay.
  destruct (Z.gtb_spec attempt (len - 1)); [|lia].
  rewrite last_lookup.
  destruct (BackoffStrategy eb) as [|d ds].
  - reflexivity.
  - rewrite index_in_range by (cbn [length]; lia).
    f_equal. cbn [length Nat.pred]. lia.
Qed.

End RetryDelay.

(** C7. For an attempt number that is a valid zero-based index,
    [retryDelay] returns the schedule entry at that index; for every
    attempt number beyond the last valid index it returns the last
    entry of the schedule (it clamps, it does not extrapolate). *)
Theorem retryDelay_entry_or_last (eb : backoff) (attempt : Z) :
  let len := Z.of_nat (length (BackoffStrategy eb)) in
  (0 <= attempt <= len - 1 ->
     retryDelay eb attempt = BackoffStrategy eb !! Z.to_nat attempt
     /\ is_Some (retryDelay eb attempt))
  /\ (len - 1 < attempt ->
     retryDelay eb attempt = last (BackoffStrategy eb)).
Proof.
  intros len. split.
  - intros Ha. rewrite retryDelay_valid by exact Ha. split; [reflexivity|].
    apply lookup_lt_is_Some. subst len. lia.
  - apply retryDelay_clamped.
Qed.

Lemma retryDelay_entry_or_last_witness :
  retryDelay passing_job 2 = Some 600
  /\ retryDelay passing_job 9 = Some 21600.
Proof.
  pose proof (retryDelay_entry_or_last passing_job 2) as [H2 _].
  pose proof (retryDelay_entry_or_last passing_job 9) as [_ H9].
  split.
  - destruct H2 as [H2 _]; [simpl; lia|]. exact H2.
  - apply H9. simpl. lia.
Defined.

(** C10. For a non-negative attempt number and a non-empty
    [BackoffStrategy], the lookup of [retryDelay] is within bounds and
    yields an element of the schedule; with an empty [BackoffStrategy]
    the index is out of bounds for every attempt number and the lookup
    panics. *)
Theorem retryDelay_in_bounds (eb : backoff) (attempt : Z) :
  (0 <= attempt -> BackoffStrategy eb <> [] ->
     exists d, retryDelay eb attempt = Some d /\ d ∈ BackoffStrategy eb)
  /\ (BackoffStrategy eb = [] -> retryDelay eb attempt = None).
Proof.
  split.
  - intros Ha Hne.
    set (len := Z.of_nat (length (BackoffStrategy eb))).
    assert (0 < len) as Hlen.
    { subst len. destruct (BackoffStrategy eb); [congruence|]. cbn [length]. lia. }
    destruct (Z.le_gt_cases attempt (len - 1)) as [Hle|Hgt].
    + rewrite retryDelay_valid by (fold len; lia).
      destruct (lookup_lt_is_Some_2 (BackoffStrategy eb) (Z.to_nat attempt))
        as [d Hd]; [fold len in Hlen; subst len; lia|].
      exists d. split; [exact Hd|]. eapply list_elem_of_lookup_2, Hd.
    + rewrite retryDelay_clamped by (fold len; lia).
      destruct (last (BackoffStrategy eb)) as [d|] eqn:Hl.
      * exists d. split; [reflexivity|].
        rewrite last_lookup in Hl. eapply list_elem_of_lookup_2, Hl.
      * apply last_None in Hl. congruence.
  - intros He. unfold retryDelay. rewrite He. cbn [length].
    apply index_out_of_range. cbn [length].
    destruct (Z.gtb_spec attempt (Z.of_nat 0 - 1)); lia.
Qed.

Lemma retryDelay_in_bounds_witness :
  (exists d, retryDelay passing_job 4 = Some d
             /\ d ∈ [0; 60; 600; 3600; 10800; 21600])
  /\ retryDelay (Backoff "Job" (fun _ _ => None) 0 []) 0 = None.
Proof.
  split.
  - apply (proj1 (retryDelay_in_bounds passing_job 4)).
    + lia.
    + simpl. discriminate.
  - apply (proj2 (retryDelay_in_bounds (Backoff "Job" (fun _ _ => None) 0 []) 0)).
    reflexivity.
Defined.

(* ===================================================================== *)
(** ** One invocation of [WorkerFunc] *)
(* ===================================================================== *)

(** Sending a command appends it to the trace and leaves the queue
    alone, whatever the reply. *)
Lemma Do_trace fl c w : trace (snd (Do fl c w)) = (trace w ++ [Sent c])%list.
Proof.
  unfold Do. destruct (Do_fault fl c); [reflexivity|].
  cbn [log redis]. destruct (Redis.exec c (redis w)); reflexivity.
Qed.

Lemma Do_resque fl c w : resque (snd (Do fl c w)) = resque w.
Proof.
  unfold Do. destruct (Do_fault fl c); [reflexivity|].
  cbn [log redis]. destruct (Redis.exec c (redis w)); reflexivity.
Qed.

Lemma Do_redis fl c w :
  redis (snd (Do fl c w)) =
    match Do_fault fl c with
    | Some _ => redis w
    | None => snd (Redis.exec c (redis w))
    end.
Proof.
  unfold Do. destruct (Do_fault fl c); [reflexivity|].
  cbn [log redis]. destruct (Redis.exec c (redis w)); reflexivity.
Qed.

Lemma Do_reply fl c w :
  fst (Do fl c w) =
    match Do_fault fl c with
    | Some err => Err err
    | None => fst (Redis.exec c (redis w))
    end.
Proof.
  unfold Do. destruct (Do_fault fl c); [reflexivity|].
  cbn [log redis]. destruct (Redis.exec c (redis w)); reflexivity.
Qed.

Section Invocation.

Variables (eb : backoff) (fl : faults) (queue : string) (args : list value).
Variable w : world.

Local Abbreviation key := (retryKey eb args).

(** The invocation from the [EXPIRE] on, for attempt [N] with delay
    [d]: the unfolding of [WorkerFunc] that the proofs below share. *)
Lemma WorkerFunc_counted (N d : Z) :
  attempt eb fl args w = Ok N ->
  retryDelay eb N = Some d ->
  WorkerFunc eb fl queue args w =
    let w3 := snd (Do fl (EXPIRE key (GoInt.add d 3600))
                     (log (Ran queue args) (counted eb fl args w))) in
    match worker eb queue args with
    | None => (Returned None, snd (Do fl (DEL key) w3))
    | Some err =>
        if N >=? RetryLimit eb
        then (Returned (Some (FailedAfter N err)), snd (Do fl (DEL key) w3))
        else (Returned (fst (submit fl (resubmission eb queue args d) w3)),
              snd (submit fl (resubmission eb queue args d) w3))
    end.
Proof.
  unfold attempt, counted, WorkerFunc. intros Hatt Hd.
  destruct (GetConn fl); [discriminate|].
  destruct (Do fl (SETNX key (-1)) w) as [[r1|e1] w1]; [|discriminate].
  cbn [snd].
  destruct (Do fl (INCR key) w1) as [[r2|e2] w2]; [|discriminate].
  cbn [fst snd] in *. injection Hatt as ->. rewrite Hd.
  destruct (Do fl (EXPIRE key (GoInt.add d 3600)) (log (Ran queue args) w2))
    as [r3 w3].
  cbn [snd].
  destruct (worker eb queue args) as [err|].
  - destruct (N >=? RetryLimit eb).
    + destruct (Do fl (DEL key) w3); reflexivity.
    + unfold resubmission, Enqueue, EnqueueIn.
      destruct (d <=? 0);
        match goal with |- context [submit fl ?s w3] =>
          destruct (submit fl s w3) as [[?|] ?] end; reflexivity.
  - destruct (Do fl (DEL key) w3); reflexivity.
Qed.

Lemma counted_trace :
  trace (counted eb fl args w)
  = (trace w ++ [Sent (SETNX key (-1)); Sent (INCR key)])%list.
Proof.
  unfold counted. rewrite !Do_trace, <- app_assoc. reflexivity.
Qed.

Lemma counted_resque : resque (counted eb fl args w) = resque w.
Proof. unfold counted. rewrite !Do_resque. reflexivity. Qed.

(** When the attempt number is [N], the counter holds [N] and the
    time-to-live it had before (none if it was just created). *)
Lemma counted_redis (N : Z) :
  attempt eb fl args w = Ok N ->
  redis (counted eb fl args w)
  = <[key := Entry N (redis w !! key ≫= ttl)]> (redis w).
Proof.
  unfold attempt, counted. intros Hatt.
  destruct (GetConn fl); [discriminate|].
  destruct (Do fl (SETNX key (-1)) w) as [r1 w1] eqn:H1.
  assert (redis w1 = redis (snd (Do fl (SETNX key (-1)) w))) as Hw1
    by (rewrite H1; reflexivity).
  assert (r1 = fst (Do fl (SETNX key (-1)) w)) as Hr1
    by (rewrite H1; reflexivity).
  rewrite Do_redis in Hw1. rewrite Do_reply in Hr1.
  destruct r1 as [r1|]; [|discriminate].
  destruct (Do_fault fl (SETNX key (-1))); [discriminate|].
  cbn [snd]. rewrite Do_reply in Hatt. rewrite Do_redis.
  destruct (Do_fault fl (INCR key)); [discriminate|].
  rewrite Hw1 in *. clear Hw1 Hr1 H1.
  cbn [Redis.exec] in *.
  destruct (redis w !! key) as [en|] eqn:Hk; cbn [snd fst] in *.
  - rewrite Hk in *. cbn [default from_option id] in *.
    destruct ((GoInt.min_int <=? count en) && (count en <? GoInt.max_int));
      cbn [fst snd] in *; [|discriminate].
    injection Hatt as <-. reflexivity.
  - rewrite lookup_insert_eq in *. cbn [default from_option id count ttl] in *.
    destruct ((GoInt.min_int <=? -1) && (-1 <? GoInt.max_int));
      cbn [fst snd] in *; [|discriminate].
    injection Hatt as <-. rewrite insert_insert_eq. reflexivity.
Qed.

End Invocation.

Lemma wrap_in_range (z : Z) : GoInt.in_range z -> GoInt.wrap z = z.
Proof.
  unfold GoInt.in_range, GoInt.min_int, GoInt.max_int, GoInt.wrap. intros Hz.
  rewrite Z.mod_small by lia. lia.
Qed.

Lemma submit_fst fl sub w : fst (submit fl sub w) = resque_fault fl sub.
Proof. unfold submit. destruct (resque_fault fl sub); reflexivity. Qed.

Lemma submit_redis fl sub w : redis (snd (submit fl sub w)) = redis w.
Proof. unfold submit. destruct (resque_fault fl sub); reflexivity. Qed.


Lemma submit_resque fl sub w :
  resque (snd (submit fl sub w)) =
    match resque_fault fl sub with
    | Some _ => resque w
    | None => (resque w ++ [sub])%list
    end.
Proof. unfold submit. destruct (resque_fault fl sub); reflexivity. Qed.


Section Outcomes.

Variables (eb : backoff) (fl : faults) (queue : string) (args : list value).
Variable w : world.

Local Abbreviation key := (retryKey eb args).

(** An invocation that cannot learn its attempt number returns the
    error at once: nothing is sent after the failed call and the job
    does not run. *)
Lemma WorkerFunc_attempt_err (e : error) :
  attempt eb fl args w = Err e ->
  fst (WorkerFunc eb fl queue args w) = Returned (Some e)
  /\ exists sent,
       trace (snd (WorkerFunc eb fl queue args w)) = (trace w ++ sent)%list
       /\ resque (snd (WorkerFunc eb fl queue args w)) = resque w
       /\ (sent = [] \/ sent = [Sent (SETNX key (-1))]
           \/ sent = [Sent (SETNX key (-1)); Sent (INCR key)]).
Proof.
  unfold attempt, WorkerFunc. intros Hatt.
  destruct (GetConn fl) as [e0|].
  { injection Hatt as ->. split; [reflexivity|].
    exists []. rewrite app_nil_r. auto. }
  pose proof (Do_trace fl (SETNX key (-1)) w) as Ht1.
  pose proof (Do_resque fl (SETNX key (-1)) w) as Hq1.
  destruct (Do fl (SETNX key (-1)) w) as [[r1|e1] w1]; cbn [snd] in *.
  2:{ injection Hatt as ->. split; [reflexivity|].
      exists [Sent (SETNX key (-1))]. auto. }
  pose proof (Do_trace fl (INCR key) w1) as Ht2.
  pose proof (Do_resque fl (INCR key) w1) as Hq2.
  destruct (Do fl (INCR key) w1) as [[r2|e2] w2]; cbn [fst snd] in *;
    [discriminate|].
  injection Hatt as ->. split; [reflexivity|].
  exists [Sent (SETNX key (-1)); Sent (INCR key)].
  rewrite Ht2, Ht1, Hq2, Hq1, <- app_assoc. auto.
Qed.


(** The store after the [EXPIRE] of attempt [N]. *)
Lemma expired_redis (N t : Z) :
  attempt eb fl args w = Ok N ->
  redis (snd (Do fl (EXPIRE key t)
                (log (Ran queue args) (counted eb fl args w)))) =
    match Do_fault fl (EXPIRE key t) with
    | Some _ => <[key := Entry N (redis w !! key ≫= ttl)]> (redis w)
    | None =>
        if t <=? 0 then delete key (redis w)
        else <[key := Entry N (Some t)]> (redis w)
    end.
Proof.
  intros Hatt. rewrite Do_redis. cbn [log redis].
  rewrite (counted_redis _ _ _ _ N Hatt).
  destruct (Do_fault fl (EXPIRE key t)); [reflexivity|].
  cbn [Redis.exec]. rewrite lookup_insert_eq.
  destruct (t <=? 0); cbn [snd count].
  - apply delete_insert_eq.
  - apply insert_insert_eq.
Qed.


Lemma expired_resque (t : Z) :
  resque (snd (Do fl (EXPIRE key t)
                 (log (Ran queue args) (counted eb fl args w)))) = resque w.
Proof. rewrite Do_resque. cbn [log resque]. apply counted_resque. Qed.

End Outcomes.


(** C3. In an invocation where the job fails, the attempt number is
    below the retry limit and the queue accepts the resubmission, the
    function returns [nil]: the error of the job is not surfaced (and
    the queue has received the resubmission). *)
Theorem retry_suppresses_job_error (eb : backoff) (fl : faults)
    (queue : string) (args : list value) (w : world) (N d : Z) (e : error) :
  attempt eb fl args w = Ok N ->
  worker eb queue args = Some e ->
  N < RetryLimit eb ->
  retryDelay eb N = Some d ->
  resque_fault fl (resubmission eb queue args d) = None ->
  fst (WorkerFunc eb fl queue args w) = Returned None
  /\ resque (snd (WorkerFunc eb fl queue args w))
     = (resque w ++ [resubmission eb queue args d])%list.
Proof.
  intros Hatt Hjob Hlim Hd Hq.
  rewrite (WorkerFunc_counted _ _ _ _ _ N d Hatt Hd). cbn zeta. rewrite Hjob.
  destruct (Z.geb_spec N (RetryLimit eb)); [lia|]. cbn [fst snd].
  rewrite submit_fst, submit_resque, Hq, expired_resque. split; reflexivity.
Qed.

(** C4. In an invocation where the job fails, a retry is still
    permitted and the re-enqueue ([Enqueue] or [EnqueueIn]) fails, the
    function returns the error of the re-enqueue. *)
Theorem resubmission_error_propagates (eb : backoff) (fl : faults)
    (queue : string) (args : list value) (w : world) (N d : Z)
    (e err : error) :
  attempt eb fl args w = Ok N ->
  worker eb queue args = Some e ->
  N < RetryLimit eb ->
  retryDelay eb N = Some d ->
  resque_fault fl (resubmission eb queue args d) = Some err ->
  fst (WorkerFunc eb fl queue args w) = Returned (Some err).
Proof.
  intros Hatt Hjob Hlim Hd Hq.
  rewrite (WorkerFunc_counted _ _ _ _ _ N d Hatt Hd). cbn zeta. rewrite Hjob.
  destruct (Z.geb_spec N (RetryLimit eb)); [lia|]. cbn [fst].
  rewrite submit_fst, Hq. reflexivity.
Qed.

Lemma retry_suppresses_job_error_witness :
  fst (WorkerFunc failing_job no_faults "q" [VInt 1] empty_world)
  = Returned None
  /\ resque (snd (WorkerFunc failing_job no_faults "q" [VInt 1] empty_world))
     = [Enqueued "q" "Job" [VInt 1]].
Proof.
  apply (retry_suppresses_job_error failing_job no_faults "q" [VInt 1]
           empty_world 0 0 "boom").
  - vm_compute. reflexivity.
  - reflexivity.
  - simpl. lia.
  - reflexivity.
  - reflexivity.
Defined.

Lemma resubmission_error_propagates_witness :
  fst (WorkerFunc failing_job queue_down "q" [VInt 1] empty_world)
  = Returned (Some "queue down").
Proof.
  apply (resubmission_error_propagates failing_job queue_down "q" [VInt 1]
           empty_world 0 0 "boom" "queue down").
  - vm_compute. reflexivity.
  - reflexivity.
  - simpl. lia.
  - reflexivity.
  - reflexivity.
Defined.

Lemma Do_faulted fl c w e :
  Do_fault fl c = Some e -> Do fl c w = (Err e, log (Sent c) w).
Proof. unfold Do. intros ->. reflexivity. Qed.

Lemma Do_applied fl c w :
  Do_fault fl c = None ->
  Do fl c w = (fst (Redis.exec c (redis w)),
               World (snd (Redis.exec c (redis w))) (resque w)
                 (trace w ++ [Sent c])).
Proof.
  unfold Do. intros ->. cbn [log redis resque trace].
  destruct (Redis.exec c (redis w)). reflexivity.
Qed.

Lemma exec_SETNX_ok k v s : exists r, fst (Redis.exec (SETNX k v) s) = Ok r.
Proof. cbn [Redis.exec]. destruct (s !! k); eexists; reflexivity. Qed.

(** An [INCR] that replies with an error has not touched the store. *)
Lemma exec_INCR_err k s e :
  fst (Redis.exec (INCR k) s) = Err e -> snd (Redis.exec (INCR k) s) = s.
Proof.
  cbn [Redis.exec]. destruct (_ && _); cbn [fst snd]; [discriminate|reflexivity].
Qed.

Lemma exec_SETNX_lookup k v s :
  snd (Redis.exec (SETNX k v) s) !! k
  = Some (default (Entry v None) (s !! k)).
Proof.
  cbn [Redis.exec]. destruct (s !! k) eqn:Hk; cbn [snd default from_option id].
  - exact Hk.
  - apply lookup_insert_eq.
Qed.

(** C5. If obtaining the connection, the [SETNX] or the [INCR] fails,
    the function returns that error at once and the wrapped job is not
    executed.  With the connection failing nothing happens at all; with
    the [SETNX] failing only that [SETNX] has been sent and the store
    is as before; with the [INCR] failing only the [SETNX] and the
    [INCR] have been sent and the store is as the [SETNX] left it, the
    counter not incremented.  In no case is anything sent after the
    failed call, the job run, or the queue touched. *)
Theorem counter_errors_stop_invocation (eb : backoff) (fl : faults)
    (queue : string) (args : list value) (w : world) (e : error) :
  let key := retryKey eb args in
  (GetConn_fault fl = Some e ->
     WorkerFunc eb fl queue args w = (Returned (Some e), w))
  /\ (GetConn_fault fl = None ->
      Do_fault fl (SETNX key (-1)) = Some e ->
      WorkerFunc eb fl queue args w
      = (Returned (Some e),
         World (redis w) (resque w) (trace w ++ [Sent (SETNX key (-1))]))
      /\ stopped_before_job eb fl queue args w e)
  /\ (GetConn_fault fl = None ->
      Do_fault fl (SETNX key (-1)) = None ->
      fst (Do fl (INCR key) (snd (Do fl (SETNX key (-1)) w))) = Err e ->
      WorkerFunc eb fl queue args w
      = (Returned (Some e),
         World (snd (Redis.exec (SETNX key (-1)) (redis w))) (resque w)
           (trace w ++ [Sent (SETNX key (-1)); Sent (INCR key)]))
      /\ redis (snd (WorkerFunc eb fl queue args w)) !! key
         = Some (Entry (standing (redis w) key) (redis w !! key ≫= ttl))
      /\ stopped_before_job eb fl queue args w e).
Proof.
  intros key.
  assert (attempt eb fl args w = Err e ->
          stopped_before_job eb fl queue args w e) as Hstop.
  { intros Hatt.
    destruct (WorkerFunc_attempt_err eb fl queue args w e Hatt)
      as (Hr & sent & Ht & Hq & Hsent).
    unfold stopped_before_job. cbn zeta. split; [exact Hr|]. split; [|exact Hq].
    intros q a. rewrite Ht, elem_of_app. intros [Hin|Hin]; [exact Hin|].
    destruct Hsent as [ -> | [ -> | -> ] ];
      repeat (apply elem_of_cons in Hin as [Hin|Hin]; [discriminate|]);
      apply elem_of_nil in Hin; contradiction. }
  split; [|split].
  - intros Hc. unfold WorkerFunc, GetConn. rewrite Hc. reflexivity.
  - intros Hc Hs. split.
    + unfold WorkerFunc, GetConn. rewrite Hc. fold key.
      rewrite (Do_faulted fl _ w e Hs). reflexivity.
    + apply Hstop. unfold attempt, GetConn. rewrite Hc. fold key.
      rewrite (Do_faulted fl _ w e Hs). reflexivity.
  - intros Hc Hs Hi.
    destruct (exec_SETNX_ok key (-1) (redis w)) as [r1 Hr1].
    rewrite (Do_applied fl _ w Hs), Hr1 in Hi. cbn [snd] in Hi.
    assert (Do fl (INCR key)
              (World (snd (Redis.exec (SETNX key (-1)) (redis w))) (resque w)
                 (trace w ++ [Sent (SETNX key (-1))]))
            = (Err e,
               World (snd (Redis.exec (SETNX key (-1)) (redis w))) (resque w)
                 (trace w ++ [Sent (SETNX key (-1)); Sent (INCR key)])))
      as Hincr.
    { destruct (Do_fault fl (INCR key)) as [e'|] eqn:Hf.
      - rewrite (Do_faulted fl _ _ e' Hf) in Hi |- *. cbn [fst] in Hi.
        injection Hi as ->. unfold log. cbn [redis resque trace].
        rewrite <- app_assoc. reflexivity.
      - rewrite (Do_applied fl _ _ Hf) in Hi |- *. cbn [fst redis resque trace] in *.
        rewrite Hi, (exec_INCR_err _ _ _ Hi), <- app_assoc. reflexivity. }
    assert (WorkerFunc eb fl queue args w
            = (Returned (Some e),
               World (snd (Redis.exec (SETNX key (-1)) (redis w))) (resque w)
                 (trace w ++ [Sent (SETNX key (-1)); Sent (INCR key)])))
      as Hrun.
    { unfold WorkerFunc, GetConn. rewrite Hc. fold key.
      rewrite (Do_applied fl _ w Hs), Hr1, Hincr. reflexivity. }
    split; [exact Hrun|]. split.
    + rewrite Hrun. cbn [snd redis]. rewrite exec_SETNX_lookup.
      unfold standing. destruct (redis w !! key) as [[c t]|]; reflexivity.
    + apply Hstop. unfold attempt, GetConn. rewrite Hc. fold key.
      rewrite (Do_applied fl _ w Hs), Hr1, Hincr. reflexivity.
Qed.

Lemma counter_errors_stop_invocation_witness :
  WorkerFunc failing_job (Faults (Some "no connection") (fun _ => None)
                            (fun _ => None)) "q" [VInt 1] empty_world
  = (Returned (Some "no connection"), empty_world)
  /\ WorkerFunc failing_job store_down "q" [VInt 1] empty_world
     = (Returned (Some "store down"),
        World ∅ [] [Sent (SETNX (retryKey failing_job [VInt 1]) (-1))])
  /\ redis (snd (WorkerFunc failing_job
                   (Faults None
                      (fun c => match c with INCR _ => Some "lost" | _ => None end)
                      (fun _ => None))
                   "q" [VInt 1] empty_world))
       !! retryKey failing_job [VInt 1] = Some (Entry (-1) None)
  /\ stopped_before_job failing_job
       (Faults None (fun c => match c with INCR _ => Some "lost" | _ => None end)
          (fun _ => None))
       "q" [VInt 1] empty_world "lost".
Proof.
  split; [|split].
  - apply (proj1 (counter_errors_stop_invocation failing_job
             (Faults (Some "no connection") (fun _ => None) (fun _ => None))
             "q" [VInt 1] empty_world "no connection")).
    reflexivity.
  - apply (proj1 (proj2 (counter_errors_stop_invocation failing_job store_down
             "q" [VInt 1] empty_world "store down"))); reflexivity.
  - destruct (proj2 (proj2 (counter_errors_stop_invocation failing_job
             (Faults None
                (fun c => match c with INCR _ => Some "lost" | _ => None end)
                (fun _ => None))
             "q" [VInt 1] empty_world "lost"))) as (_ & Hk & Hstop);
      [reflexivity..|].
    split; [exact Hk|exact Hstop].
Defined.






(* ===================================================================== *)
(** ** Successive invocations of a job that always fails *)
(* ===================================================================== *)

Lemma calls_app n m eb fl queue args w :
  calls (n + m) eb fl queue args w =
    let '(os1, w1) := calls n eb fl queue args w in
    let '(os2, w2) := calls m eb fl queue args w1 in
    ((os1 ++ os2)%list, w2).
Proof.
  revert w. induction n as [|n IH]; intros w; cbn [calls Nat.add].
  - destruct (calls m eb fl queue args w). reflexivity.
  - destruct (WorkerFunc eb fl queue args w) as [o w1]. rewrite IH.
    destruct (calls n eb fl queue args w1) as [os1 w2].
    destruct (calls m eb fl queue args w2). reflexivity.
Qed.

Lemma calls_snoc n eb fl queue args w :
  calls (S n) eb fl queue args w =
    let '(os, w1) := calls n eb fl queue args w in
    let '(o, w2) := WorkerFunc eb fl queue args w1 in
    ((os ++ [o])%list, w2).
Proof.
  rewrite <- Nat.add_1_r, calls_app.
  destruct (calls n eb fl queue args w) as [os w1]. cbn [calls].
  destruct (WorkerFunc eb fl queue args w1). reflexivity.
Qed.

Lemma repeat_snoc {A} (x : A) n : (repeat x n ++ [x])%list = repeat x (S n).
Proof. induction n as [|n IH]; cbn; [reflexivity|]. f_equal. exact IH. Qed.

Section AlwaysFailing.

Variables (eb : backoff) (queue : string) (args : list value) (e : error).
Hypothesis job_fails : worker eb queue args = Some e.

Local Abbreviation key := (retryKey eb args).
Local Abbreviation sched := (BackoffStrategy eb).

Lemma attempt_no_faults w v :
  counter_at (redis w) key v ->
  GoInt.min_int <= v < GoInt.max_int ->
  attempt eb no_faults args w = Ok (v + 1).
Proof.
  intros Hc Hv. unfold attempt, GetConn. cbn [no_faults GetConn_fault].
  pose proof (Do_reply no_faults (SETNX key (-1)) w) as Hr1.
  pose proof (Do_redis no_faults (SETNX key (-1)) w) as Hs1.
  destruct (Do no_faults (SETNX key (-1)) w) as [r1 w1].
  rewrite Do_reply. cbn [fst snd no_faults Do_fault Redis.exec] in *.
  rewrite Hs1. unfold counter_at in Hc.
  destruct (redis w !! key) as [en|] eqn:Hk; cbn [fst snd] in *; subst r1.
  - rewrite Hk. cbn [default from_option id]. subst v.
    destruct (Z.leb_spec GoInt.min_int (count en)); [|lia].
    destruct (Z.ltb_spec (count en) GoInt.max_int); [|lia]. reflexivity.
  - rewrite lookup_insert_eq. cbn [default from_option id count]. subst v.
    reflexivity.
Qed.

(** A failure below the retry limit: the job is resubmitted with the
    delay of its attempt number and the counter stays, one higher. *)
Lemma step_retry w v d :
  counter_at (redis w) key v ->
  GoInt.min_int <= v < GoInt.max_int ->
  v + 1 < RetryLimit eb ->
  retryDelay eb (v + 1) = Some d ->
  0 < GoInt.add d 3600 ->
  exists w',
    WorkerFunc eb no_faults queue args w = (Returned None, w')
    /\ resque w' = (resque w ++ [resubmission eb queue args d])%list
    /\ counter_at (redis w') key (v + 1).
Proof.
  intros Hc Hv Hlim Hd Hpos.
  pose proof (attempt_no_faults w v Hc Hv) as Hatt.
  rewrite (WorkerFunc_counted _ _ _ _ _ _ d Hatt Hd). cbn zeta.
  rewrite job_fails. destruct (Z.geb_spec (v + 1) (RetryLimit eb)); [lia|].
  eexists. split; [reflexivity|]. cbn [submit no_faults resque_fault resque redis].
  rewrite expired_resque, (expired_redis _ _ _ _ _ _ _ Hatt).
  split; [reflexivity|]. cbn [no_faults Do_fault].
  destruct (Z.leb_spec (GoInt.add d 3600) 0); [lia|].
  unfold counter_at. cbn [snd redis]. rewrite lookup_insert_eq. reflexivity.
Qed.

(** A failure at the retry limit: the error is returned, nothing is
    resubmitted and the counter is deleted. *)
Lemma step_final w v d :
  counter_at (redis w) key v ->
  GoInt.min_int <= v < GoInt.max_int ->
  RetryLimit eb <= v + 1 ->
  retryDelay eb (v + 1) = Some d ->
  exists w',
    WorkerFunc eb no_faults queue args w
    = (Returned (Some (FailedAfter (v + 1) e)), w')
    /\ resque w' = resque w
    /\ redis w' !! key = None.
Proof.
  intros Hc Hv Hlim Hd.
  pose proof (attempt_no_faults w v Hc Hv) as Hatt.
  rewrite (WorkerFunc_counted _ _ _ _ _ _ d Hatt Hd). cbn zeta.
  rewrite job_fails. destruct (Z.geb_spec (v + 1) (RetryLimit eb)); [|lia].
  eexists. split; [reflexivity|].
  rewrite Do_resque, expired_resque, Do_redis.
  rewrite (expired_redis _ _ _ _ _ _ _ Hatt).
  split; [reflexivity|]. cbn [no_faults Do_fault Redis.exec].
  destruct (GoInt.add d 3600 <=? 0).
  - rewrite lookup_delete_eq. cbn [snd]. apply lookup_delete_eq.
  - rewrite lookup_insert_eq. cbn [snd]. apply lookup_delete_eq.
Qed.

Hypothesis limit_is_length : RetryLimit eb = Z.of_nat (length sched).
Hypothesis length_is_int : Z.of_nat (length sched) <= GoInt.max_int.
Hypothesis ttl_positive : Forall (fun d => 0 < GoInt.add d 3600) sched.

(** The first [k] calls, for [k] up to the length of the schedule:
    none returns an error and the queue receives the resubmissions of
    the first [k] delays, in order. *)
Lemma run_prefix w k :
  redis w !! key = None ->
  (k <= length sched)%nat ->
  exists wk,
    calls k eb no_faults queue args w = (repeat (Returned None) k, wk)
    /\ resque wk
       = (resque w ++ map (resubmission eb queue args) (take k sched))%list
    /\ counter_at (redis wk) key (Z.of_nat k - 1).
Proof.
  intros Hfresh. induction k as [|k IH]; intros Hk.
  - exists w. cbn [calls repeat take map]. rewrite app_nil_r.
    split; [reflexivity|]. split; [reflexivity|].
    unfold counter_at. rewrite Hfresh. reflexivity.
  - destruct IH as (wk & Hcalls & Hq & Hc); [lia|].
    destruct (lookup_lt_is_Some_2 sched k) as [d Hd]; [lia|].
    destruct (step_retry wk (Z.of_nat k - 1) d) as (w' & Hstep & Hq' & Hc').
    + exact Hc.
    + unfold GoInt.min_int, GoInt.max_int in *. lia.
    + lia.
    + replace (Z.of_nat k - 1 + 1) with (Z.of_nat k) by lia.
      rewrite retryDelay_valid by lia. rewrite Nat2Z.id. exact Hd.
    + eapply (proj1 (Forall_lookup _ _) ttl_positive), Hd.
    + exists w'. rewrite calls_snoc, Hcalls, Hstep, repeat_snoc.
      split; [reflexivity|]. split.
      * rewrite Hq', Hq, (take_S_r _ _ _ Hd), map_app, <- app_assoc.
        reflexivity.
      * replace (Z.of_nat (S k) - 1) with (Z.of_nat k - 1 + 1) by lia.
        exact Hc'.
Qed.

(** The whole run: as many resubmissions as the schedule has entries,
    then the terminal error on the next call. *)
Lemma run_to_exhaustion w :
  sched <> [] ->
  redis w !! key = None ->
  exists w',
    calls (S (length sched)) eb no_faults queue args w
    = ((repeat (Returned None) (length sched)
        ++ [Returned (Some (FailedAfter (Z.of_nat (length sched)) e))])%list,
       w')
    /\ resque w' = (resque w ++ map (resubmission eb queue args) sched)%list
    /\ redis w' !! key = None.
Proof.
  intros Hne Hfresh.
  destruct (run_prefix w (length sched) Hfresh) as (wL & Hcalls & Hq & Hc);
    [lia|].
  rewrite firstn_all in Hq.
  destruct (last sched) as [d|] eqn:Hlast;
    [|apply last_None in Hlast; contradiction].
  destruct (step_final wL (Z.of_nat (length sched) - 1) d)
    as (w' & Hstep & Hq' & Hk').
  - exact Hc.
  - unfold GoInt.min_int, GoInt.max_int in *. lia.
  - lia.
  - rewrite retryDelay_clamped by lia. exact Hlast.
  - exists w'. rewrite calls_snoc, Hcalls, Hstep.
    replace (Z.of_nat (length sched) - 1 + 1) with (Z.of_nat (length sched))
      by lia.
    split; [reflexivity|]. split; [congruence|exact Hk'].
Qed.

End AlwaysFailing.

(** C1. With the default schedule and a job that fails on every
    execution, started with no counter for its key: each of the first
    six calls returns no error, call 1 resubmitting with [Enqueue] and
    calls 2 to 6 with [EnqueueIn] after 60, 600, 3600, 10800 and 21600
    seconds; call 7 returns the error ["Failed after 7 attempts: ..."]
    naming the failure, resubmits nothing and leaves the counter key
    deleted. *)
Theorem default_schedule_scenario (jobName : string)
    (job : string -> list value -> option error) (queue : string)
    (args : list value) (e : error) (w : world) :
  job queue args = Some e ->
  redis w !! retryKey (NewBackoff jobName job) args = None ->
  let eb := NewBackoff jobName job in
  (forall k, (k <= 6)%nat ->
     exists wk,
       calls k eb no_faults queue args w = (repeat (Returned None) k, wk)
       /\ resque wk
          = (resque w ++ take k (default_resubmissions jobName queue args))%list)
  /\ exists w7,
       calls 7 eb no_faults queue args w
       = ([Returned None; Returned None; Returned None; Returned None;
           Returned None; Returned None;
           Returned (Some ("Failed after 7 attempts: " +:+ e))], w7)
       /\ resque w7
          = (resque w ++ default_resubmissions jobName queue args)%list
       /\ redis w7 !! retryKey eb args = None.
Proof.
  intros Hjob Hfresh eb.
  assert (Forall (fun d => 0 < GoInt.add d 3600) (BackoffStrategy eb)) as Hpos
    by (repeat constructor).
  assert (Z.of_nat (length (BackoffStrategy eb)) <= GoInt.max_int) as Hlen
    by (vm_compute; discriminate).
  split.
  - intros k Hk.
    destruct (run_prefix eb queue args e Hjob eq_refl Hlen Hpos w k Hfresh Hk)
      as (wk & Hcalls & Hq & _).
    exists wk. split; [exact Hcalls|]. rewrite Hq. f_equal.
    change (default_resubmissions jobName queue args)
      with (map (resubmission eb queue args) (BackoffStrategy eb)).
    apply (fmap_take (resubmission eb queue args)).
  - destruct (run_to_exhaustion eb queue args e Hjob eq_refl Hlen Hpos w)
      as (w7 & Hcalls & Hq & Hk); [discriminate|exact Hfresh|].
    exists w7. split; [exact Hcalls|]. split; [exact Hq|exact Hk].
Qed.

Lemma default_schedule_scenario_witness :
  exists w7,
    calls 7 failing_job no_faults "q" [VInt 1] empty_world
    = ([Returned None; Returned None; Returned None; Returned None;
        Returned None; Returned None;
        Returned (Some "Failed after 7 attempts: boom")], w7)
    /\ resque w7 = default_resubmissions "Job" "q" [VInt 1]
    /\ redis w7 !! retryKey failing_job [VInt 1] = None.
Proof.
  apply (default_schedule_scenario "Job" (fun _ _ => Some "boom") "q"
           [VInt 1] "boom" empty_world).
  - reflexivity.
  - apply lookup_empty.
Defined.

(** C2 (amended). For every non-empty schedule of length [L] that is
    also the retry limit, with positive times-to-live, a job that fails
    on every attempt, started with no counter, is resubmitted exactly
    [L] times, once per schedule entry and in schedule order (with
    [Enqueue] for a delay of zero, [EnqueueIn] otherwise); the call
    after these, call [L + 1] with attempt number [L], returns the
    terminal error, resubmits nothing and deletes the counter. *)
Theorem always_failing_resubmitted_L_times (eb : backoff) (queue : string)
    (args : list value) (e : error) (w : world) :
  BackoffStrategy eb <> [] ->
  RetryLimit eb = Z.of_nat (length (BackoffStrategy eb)) ->
  Z.of_nat (length (BackoffStrategy eb)) <= GoInt.max_int ->
  Forall (fun d => 0 < GoInt.add d 3600) (BackoffStrategy eb) ->
  worker eb queue args = Some e ->
  redis w !! retryKey eb args = None ->
  let L := length (BackoffStrategy eb) in
  exists w',
    calls (S L) eb no_faults queue args w
    = ((repeat (Returned None) L
        ++ [Returned (Some (FailedAfter (Z.of_nat L) e))])%list, w')
    /\ resque w'
       = (resque w ++ map (resubmission eb queue args) (BackoffStrategy eb))%list
    /\ length (resque w') = (length (resque w) + L)%nat
    /\ redis w' !! retryKey eb args = None.
Proof.
  intros Hne Hlim Hlen Hpos Hjob Hfresh L.
  destruct (run_to_exhaustion eb queue args e Hjob Hlim Hlen Hpos w Hne Hfresh)
    as (w' & Hcalls & Hq & Hk).
  exists w'. split; [exact Hcalls|]. split; [exact Hq|]. split; [|exact Hk].
  rewrite Hq, length_app, length_map. reflexivity.
Qed.

Lemma always_failing_resubmitted_L_times_witness :
  exists w',
    calls 3 (Backoff "Job" (fun _ _ => Some "boom") 2 [0; 5]) no_faults "q"
      [VString "a"] empty_world
    = ([Returned None; Returned None;
        Returned (Some "Failed after 3 attempts: boom")], w')
    /\ resque w' = [Enqueued "q" "Job" [VString "a"];
                    EnqueuedIn (5 * Second) "q" "Job" [VString "a"]]
    /\ length (resque w') = 2%nat
    /\ redis w'
         !! retryKey (Backoff "Job" (fun _ _ => Some "boom") 2 [0; 5])
              [VString "a"] = None.
Proof.
  apply (always_failing_resubmitted_L_times
           (Backoff "Job" (fun _ _ => Some "boom") 2 [0; 5]) "q"
           [VString "a"] "boom" empty_world).
  - discriminate.
  - reflexivity.
  - vm_compute. discriminate.
  - repeat constructor.
  - reflexivity.
  - apply lookup_empty.
Defined.

(** C2, as stated, fails on the default schedule ([L = 6]): the sixth
    call still returns no error, the first error comes with the seventh
    call, and by then the queue has accepted six resubmissions, not
    five. *)
Lemma always_failing_not_Lminus1 :
  nth_error (fst (calls 7 failing_job no_faults "q" [VInt 1] empty_world)) 5
  = Some (Returned None)
  /\ length (resque (snd (calls 7 failing_job no_faults "q" [VInt 1]
                            empty_world))) = 6%nat
  /\ ~ resubmitted_Lminus1_times failing_job "q" [VInt 1].
Proof.
  split; [vm_compute; reflexivity|]. split; [vm_compute; reflexivity|].
  intros H.
  specialize (H 6%nat "Failed after 7 attempts: boom"
                (snd (calls 7 failing_job no_faults "q" [VInt 1] empty_world))).
  assert (length (resque (snd (calls 7 failing_job no_faults "q" [VInt 1]
                                 empty_world))) = 6%nat) as H6
    by (vm_compute; reflexivity).
  rewrite H6 in H. cbn [failing_job NewBackoff BackoffStrategy length] in H.
  assert (6 = 5)%nat as Habs; [|discriminate Habs].
  apply H. vm_compute. reflexivity.
Qed.

(* ===================================================================== *)
(** ** The retry identity *)
(* ===================================================================== *)

Lemma hex_digit_inj d1 d2 :
  0 <= d1 < 16 -> 0 <= d2 < 16 ->
  fmt.hex_digit d1 = fmt.hex_digit d2 -> d1 = d2.
Proof.
  intros H1 H2. enum16 d1 H1; enum16 d2 H2; intros H;
    solve [reflexivity | vm_compute in H; discriminate H].
Qed.

Lemma hex_digit_not_space d :
  0 <= d < 16 -> Ascii.eqb (fmt.hex_digit d) " "%char = false.
Proof. intros H. enum16 d H; reflexivity. Qed.

Lemma byte_nibbles b :
  0 <= b < 256 -> 0 <= b / 16 < 16 /\ 0 <= b mod 16 < 16.
Proof.
  intros Hb. split.
  - split; [apply Z.div_pos; lia|apply Z.div_lt_upper_bound; lia].
  - apply Z.mod_pos_bound. lia.
Qed.

Lemma RemoveSpaces_hex bs :
  Forall (fun b => 0 <= b < 256) bs ->
  GoStrings.RemoveSpaces (fmt.Sprintf_x bs) = fmt.Sprintf_x bs.
Proof.
  induction 1 as [|b bs Hb _ IH]; [reflexivity|].
  destruct (byte_nibbles b Hb) as [Hhi Hlo].
  cbn [fmt.Sprintf_x GoStrings.RemoveSpaces].
  rewrite (hex_digit_not_space _ Hhi), (hex_digit_not_space _ Hlo), IH.
  reflexivity.
Qed.

Lemma Sprintf_x_inj bs1 bs2 :
  Forall (fun b => 0 <= b < 256) bs1 ->
  Forall (fun b => 0 <= b < 256) bs2 ->
  fmt.Sprintf_x bs1 = fmt.Sprintf_x bs2 -> bs1 = bs2.
Proof.
  intros H1. revert bs2.
  induction H1 as [|b1 bs1 Hb1 _ IH]; intros bs2 H2 Heq.
  - destruct bs2; [reflexivity|discriminate].
  - destruct H2 as [|b2 bs2 Hb2 H2]; [discriminate|].
    cbn [fmt.Sprintf_x] in Heq. injection Heq as Hhi Hlo Hrest.
    destruct (byte_nibbles b1 Hb1) as [? ?].
    destruct (byte_nibbles b2 Hb2) as [? ?].
    apply hex_digit_inj in Hhi; [|assumption..].
    apply hex_digit_inj in Hlo; [|assumption..].
    f_equal; [|apply IH; assumption].
    rewrite (Z.div_mod b1 16), (Z.div_mod b2 16) by lia. congruence.
Qed.

Lemma be_bytes_byte width x :
  Forall (fun b => 0 <= b < 256) (sha1.be_bytes width x).
Proof.
  unfold sha1.be_bytes. apply Forall_forall. intros b Hin.
  apply list_elem_of_In, in_map_iff in Hin as (i & <- & _).
  apply Z.mod_pos_bound. lia.
Qed.

Lemma Sum_bytes msg : Forall (fun b => 0 <= b < 256) (sha1.Sum msg).
Proof.
  unfold sha1.Sum. cbn zeta. repeat apply Forall_app_2; apply be_bytes_byte.
Qed.

Lemma Sprintf_x_length bs :
  String.length (fmt.Sprintf_x bs) = (2 * length bs)%nat.
Proof.
  induction bs as [|b bs IH]; [reflexivity|].
  cbn [fmt.Sprintf_x String.length length]. rewrite IH. lia.
Qed.

(** C8 (amended). The key is a function of the job name and the
    argument list alone: equal job names and equal arguments give equal
    keys, whatever the rest of the [backoff].  The identity is the
    40-character hexadecimal SHA-1 digest of the canonical string (the
    ["%v"] renderings joined by ["-"]): argument lists with the same
    canonical string share their identity, and two argument lists have
    the same identity exactly when the digests of their canonical
    strings coincide. *)
Theorem retry_identity_of_canonical_string :
  (forall eb1 eb2 args1 args2,
     jobName eb1 = jobName eb2 -> args1 = args2 ->
     retryKey eb1 args1 = retryKey eb2 args2)
  /\ (forall args1 args2,
        canonical args1 = canonical args2 ->
        retryIdentifier args1 = retryIdentifier args2)
  /\ (forall args1 args2,
        retryIdentifier args1 = retryIdentifier args2
        <-> sha1.Sum (GoStrings.bytes (canonical args1))
            = sha1.Sum (GoStrings.bytes (canonical args2)))
  /\ (forall args, String.length (retryIdentifier args) = 40%nat).
Proof.
  split; [|split; [|split]].
  - intros eb1 eb2 args1 args2 Hj ->. unfold retryKey. rewrite Hj. reflexivity.
  - intros args1 args2 Hc. unfold retryIdentifier. cbn zeta.
    fold (canonical args1) (canonical args2). rewrite Hc. reflexivity.
  - intros args1 args2. unfold retryIdentifier. cbn zeta.
    fold (canonical args1) (canonical args2).
    rewrite !RemoveSpaces_hex by apply Sum_bytes. split.
    + apply Sprintf_x_inj; apply Sum_bytes.
    + intros ->. reflexivity.
  - intros args. unfold retryIdentifier. cbn zeta.
    rewrite RemoveSpaces_hex by apply Sum_bytes.
    rewrite Sprintf_x_length. unfold sha1.Sum. cbn zeta.
    rewrite !length_app. unfold sha1.be_bytes.
    rewrite !length_map, !length_rev, !length_seq. reflexivity.
Qed.

Lemma retry_identity_of_canonical_string_witness :
  retryKey failing_job [VInt 1; VBool true]
  = retryKey passing_job [VInt 1; VBool true]
  /\ retryIdentifier [VString "a-b"] = retryIdentifier [VString "a"; VString "b"].
Proof.
  destruct retry_identity_of_canonical_string as (Hkey & Hcanon & _ & _).
  split.
  - apply Hkey; reflexivity.
  - apply Hcanon. reflexivity.
Defined.

(** C8, as stated, fails: the one-element list ["a-b"] and the
    two-element list ["a", "b"] are distinct argument lists with the
    same canonical string, hence the same identity and the same key. *)
Lemma distinct_args_same_identity :
  [VString "a-b"] <> [VString "a"; VString "b"]
  /\ retryIdentifier [VString "a-b"] = retryIdentifier [VString "a"; VString "b"]
  /\ retryKey passing_job [VString "a-b"]
     = retryKey passing_job [VString "a"; VString "b"]
  /\ ~ identities_distinct.
Proof.
  split; [discriminate|]. split; [reflexivity|]. split; [reflexivity|].
  intros H.
  apply (H [VString "a-b"] [VString "a"; VString "b"]);
    [discriminate|reflexivity].
Qed.

(* ===================================================================== *)
(** ** Further properties of one invocation *)
(* ===================================================================== *)


(** A non-negative attempt number always finds a delay in a non-empty
    schedule, and the delay is one of its entries. *)
Lemma retryDelay_defined eb N :
  0 <= N -> BackoffStrategy eb <> [] ->
  exists d, retryDelay eb N = Some d /\ d ∈ BackoffStrategy eb.
Proof.
  intros HN Hne.
  assert (0 < Z.of_nat (length (BackoffStrategy eb))) as Hlen.
  { destruct (BackoffStrategy eb); [congruence|]. cbn [length]. lia. }
  destruct (Z.le_gt_cases N (Z.of_nat (length (BackoffStrategy eb)) - 1)).
  - rewrite retryDelay_valid by lia.
    destruct (lookup_lt_is_Some_2 (BackoffStrategy eb) (Z.to_nat N)) as [d Hd];
      [lia|].
    exists d. split; [exact Hd|]. eapply list_elem_of_lookup_2, Hd.
  - rewrite retryDelay_clamped by lia.
    destruct (last (BackoffStrategy eb)) as [d|] eqn:Hl.
    + exists d. split; [reflexivity|].
      rewrite last_lookup in Hl. eapply list_elem_of_lookup_2, Hl.
    + apply last_None in Hl. contradiction.
Qed.

Lemma retryDelay_negative eb N : N < 0 -> retryDelay eb N = None.
Proof.
  intros HN. unfold retryDelay.
  destruct (Z.gtb_spec N (Z.of_nat (length (BackoffStrategy eb)) - 1)).
  - apply index_out_of_range. lia.
  - apply index_out_of_range. lia.
Qed.

Lemma retryDelay_empty eb N : BackoffStrategy eb = [] -> retryDelay eb N = None.
Proof.
  intros He. unfold retryDelay. rewrite He. cbn [length].
  apply index_out_of_range. cbn [length].
  destruct (Z.gtb_spec N (Z.of_nat 0 - 1)); lia.
Qed.

(** The world of an invocation that panics: the job has run and nothing
    follows. *)
Lemma WorkerFunc_panicked eb fl queue args w N :
  attempt eb fl args w = Ok N ->
  retryDelay eb N = None ->
  WorkerFunc eb fl queue args w
  = (Panicked, log (Ran queue args) (counted eb fl args w)).
Proof.
  unfold attempt, counted, WorkerFunc. intros Hatt Hd.
  destruct (GetConn fl); [discriminate|].
  destruct (Do fl (SETNX (retryKey eb args) (-1)) w) as [[r1|e1] w1];
    [|discriminate].
  cbn [snd].
  destruct (Do fl (INCR (retryKey eb args)) w1) as [[r2|e2] w2];
    [|discriminate].
  cbn [fst snd] in *. injection Hatt as ->. rewrite Hd. reflexivity.
Qed.





(** X3. The delay lookup panics exactly for a negative attempt number
    or an empty [BackoffStrategy].  An invocation whose attempt number
    has no delay panics after the job has run: no [EXPIRE] and no [DEL]
    is sent and nothing is queued, so the counter stays incremented with
    whatever time-to-live it had (none for a counter just created). *)
Theorem panic_leaves_counter (eb : backoff) (fl : faults) (queue : string)
    (args : list value) (w : world) (N : Z) :
  (retryDelay eb N = None <-> N < 0 \/ BackoffStrategy eb = [])
  /\ (attempt eb fl args w = Ok N ->
      retryDelay eb N = None ->
      let key := retryKey eb args in
      let w' := snd (WorkerFunc eb fl queue args w) in
      fst (WorkerFunc eb fl queue args w) = Panicked
      /\ trace w' = (trace w ++ [Sent (SETNX key (-1)); Sent (INCR key);
                                 Ran queue args])%list
      /\ resque w' = resque w
      /\ redis w' !! key = Some (Entry N (redis w !! key ≫= ttl))).
Proof.
  split.
  - split.
    + intros Hnone. destruct (Z.lt_ge_cases N 0) as [?|Hge]; [left; assumption|].
      right. destruct (BackoffStrategy eb) as [|d0 ds] eqn:Hs; [reflexivity|].
      destruct (retryDelay_defined eb N Hge) as (d & Hd & _); congruence.
    + intros [Hneg|Hemp];
        [apply retryDelay_negative, Hneg|apply retryDelay_empty, Hemp].
  - intros Hatt Hd key w'. subst w'.
    rewrite (WorkerFunc_panicked _ _ _ _ _ N Hatt Hd). cbn [fst snd log trace resque redis].
    rewrite counted_trace, counted_resque, (counted_redis _ _ _ _ N Hatt).
    fold key. rewrite <- app_assoc, lookup_insert_eq.
    repeat split; reflexivity.
Qed.

Lemma panic_leaves_counter_witness :
  fst (WorkerFunc (Backoff "Job" (fun _ _ => None) 0 []) no_faults
         "q" [VInt 1] empty_world) = Panicked
  /\ redis (snd (WorkerFunc (Backoff "Job" (fun _ _ => None) 0 []) no_faults
                   "q" [VInt 1] empty_world))
       !! retryKey (Backoff "Job" (fun _ _ => None) 0 []) [VInt 1]
     = Some (Entry 0 None).
Proof.
  destruct (proj2 (panic_leaves_counter (Backoff "Job" (fun _ _ => None) 0 [])
                     no_faults "q" [VInt 1] empty_world 0))
    as (Hr & _ & _ & Hk).
  - vm_compute. reflexivity.
  - reflexivity.
  - split; [exact Hr|exact Hk].
Defined.

(* ===================================================================== *)
(** ** Further properties of the key *)
(* ===================================================================== *)

Lemma append_cons c (a b : string) : String c a +:+ b = String c (a +:+ b).
Proof. reflexivity. Qed.

Lemma string_length_app (a b : string) :
  String.length (a +:+ b) = (String.length a + String.length b)%nat.
Proof.
  induction a as [|c a IH]; [reflexivity|].
  rewrite append_cons. cbn [String.length]. rewrite IH. reflexivity.
Qed.

(** Two concatenations with tails of the same length agree part by
    part. *)
Lemma string_app_inj_tail (a1 a2 b1 b2 : string) :
  String.length b1 = String.length b2 ->
  a1 +:+ b1 = a2 +:+ b2 -> a1 = a2 /\ b1 = b2.
Proof.
  revert a2. induction a1 as [|c1 a1 IH]; intros [|c2 a2] Hlen Heq.
  - split; [reflexivity|exact Heq].
  - exfalso. apply (f_equal String.length) in Heq.
    rewrite !string_length_app in Heq. cbn [String.length] in Heq. lia.
  - exfalso. apply (f_equal String.length) in Heq.
    rewrite !string_length_app in Heq. cbn [String.length] in Heq. lia.
  - rewrite !append_cons in Heq. injection Heq as -> Heq.
    destruct (IH a2 Hlen Heq) as [-> ->]. split; reflexivity.
Qed.

Lemma retryIdentifier_hex args :
  retryIdentifier args
  = fmt.Sprintf_x (sha1.Sum (GoStrings.bytes (canonical args))).
Proof.
  unfold retryIdentifier. cbn zeta. fold (canonical args).
  apply RemoveSpaces_hex, Sum_bytes.
Qed.

Lemma retryIdentifier_length args :
  String.length (retryIdentifier args) = 40%nat.
Proof.
  rewrite retryIdentifier_hex, Sprintf_x_length. unfold sha1.Sum. cbn zeta.
  rewrite !length_app. unfold sha1.be_bytes.
  rewrite !length_map, !length_rev, !length_seq. reflexivity.
Qed.

Lemma retryKey_shape eb args :
  retryKey eb args
  = "resque:resque-retry:" +:+ jobName eb +:+ ":" +:+ retryIdentifier args.
Proof. reflexivity. Qed.

(** X4. Two keys are equal exactly when the job names are equal and
    the identities are equal: counters of jobs with different names
    never coincide, even when a name contains the separator [":"]. *)
Theorem retryKey_injective (eb1 eb2 : backoff) (args1 args2 : list value) :
  retryKey eb1 args1 = retryKey eb2 args2
  <-> jobName eb1 = jobName eb2
      /\ retryIdentifier args1 = retryIdentifier args2.
Proof.
  split.
  - rewrite !retryKey_shape. intros Heq.
    apply (inj (String.append "resque:resque-retry:")) in Heq.
    apply string_app_inj_tail in Heq as [Hj Hid].
    + split; [exact Hj|]. exact (inj (String.append ":") _ _ Hid).
    + rewrite !string_length_app, !retryIdentifier_length. reflexivity.
  - intros [Hj Hid]. rewrite !retryKey_shape, Hj, Hid. reflexivity.
Qed.

Lemma hex_digit_alphabet d :
  0 <= d < 16 ->
  In (fmt.hex_digit d) (list_ascii_of_string "0123456789abcdef").
Proof.
  intros H. enum16 d H; vm_compute; tauto.
Qed.

(** X5. The identity is the ["%x"] rendering of the digest as it
    stands: it holds 40 characters, all of them among [0-9a-f], so the
    final [strings.Replace] of spaces never removes anything. *)
Theorem retryIdentifier_is_hex_digest (args : list value) :
  retryIdentifier args
  = fmt.Sprintf_x (sha1.Sum (GoStrings.bytes (canonical args)))
  /\ String.length (retryIdentifier args) = 40%nat
  /\ Forall (fun c => In c (list_ascii_of_string "0123456789abcdef"))
       (list_ascii_of_string (retryIdentifier args)).
Proof.
  split; [apply retryIdentifier_hex|]. split; [apply retryIdentifier_length|].
  rewrite retryIdentifier_hex.
  generalize (Sum_bytes (GoStrings.bytes (canonical args))).
  generalize (sha1.Sum (GoStrings.bytes (canonical args))) as bs.
  induction 1 as [|b bs Hb _ IH]; [constructor|].
  destruct (byte_nibbles b Hb) as [Hhi Hlo].
  cbn [fmt.Sprintf_x list_ascii_of_string].
  repeat (constructor; [apply hex_digit_alphabet; assumption|]). exact IH.
Qed.

(* ===================================================================== *)
(** ** The store and the queue across an invocation *)
(* ===================================================================== *)

Lemma exec_frame c s k :
  k <> command_key c -> snd (Redis.exec c s) !! k = s !! k.
Proof.
  intros Hne. destruct c as [key v|key|key t|key]; cbn [command_key] in Hne;
    cbn [Redis.exec].
  - destruct (s !! key); cbn [snd]; [reflexivity|].
    apply lookup_insert_ne. congruence.
  - destruct (_ && _); cbn [snd]; [|reflexivity].
    apply lookup_insert_ne. congruence.
  - destruct (s !! key); cbn [snd]; [|reflexivity].
    destruct (t <=? 0); cbn [snd].
    + apply lookup_delete_ne. congruence.
    + apply lookup_insert_ne. congruence.
  - destruct (s !! key); cbn [snd]; [|reflexivity].
    apply lookup_delete_ne. congruence.
Qed.

Lemma Do_frame fl c w k :
  k <> command_key c -> redis (snd (Do fl c w)) !! k = redis w !! k.
Proof.
  intros Hne. rewrite Do_redis. destruct (Do_fault fl c); [reflexivity|].
  apply exec_frame, Hne.
Qed.

(** The attempt number in closed form. *)
Lemma attempt_closed_form eb fl args w :
  attempt eb fl args w =
    match GetConn_fault fl with
    | Some err => Err err
    | None =>
        match Do_fault fl (SETNX (retryKey eb args) (-1)) with
        | Some err => Err err
        | None =>
            match Do_fault fl (INCR (retryKey eb args)) with
            | Some err => Err err
            | None =>
                let v := standing (redis w) (retryKey eb args) in
                if (GoInt.min_int <=? v) && (v <? GoInt.max_int)
                then Ok (v + 1) else Err (Redis.INCR_error v)
            end
        end
    end.
Proof.
  unfold attempt, GetConn, standing. destruct (GetConn_fault fl); [reflexivity|].
  pose proof (Do_reply fl (SETNX (retryKey eb args) (-1)) w) as Hr.
  pose proof (Do_redis fl (SETNX (retryKey eb args) (-1)) w) as Hs.
  destruct (Do fl (SETNX (retryKey eb args) (-1)) w) as [r1 w1].
  cbn [fst snd] in Hr, Hs. subst r1.
  destruct (Do_fault fl (SETNX (retryKey eb args) (-1))); [reflexivity|].
  cbn [Redis.exec] in *. rewrite Do_reply, Hs.
  destruct (redis w !! retryKey eb args) as [en|] eqn:Hk; cbn [fst snd].
  - destruct (Do_fault fl (INCR (retryKey eb args))); [reflexivity|].
    cbn [Redis.exec]. rewrite Hk. cbn [default from_option id].
    destruct (_ && _); reflexivity.
  - destruct (Do_fault fl (INCR (retryKey eb args))); [reflexivity|].
    cbn [Redis.exec]. rewrite lookup_insert_eq.
    cbn [default from_option id count]. destruct (_ && _); reflexivity.
Qed.

(** X6. The attempt number of an invocation is one more than the count
    standing under its key, 0 for a key that does not exist yet; a
    counter already at the largest [int] makes the [INCR] fail with the
    overflow reply of the store, and the invocation then returns that
    error as it is. *)
Theorem attempt_is_next_count (eb : backoff) (fl : faults)
    (queue : string) (args : list value) (w : world) :
  GetConn_fault fl = None ->
  Do_fault fl (SETNX (retryKey eb args) (-1)) = None ->
  Do_fault fl (INCR (retryKey eb args)) = None ->
  let key := retryKey eb args in
  (redis w !! key = None -> attempt eb fl args w = Ok 0)
  /\ (forall en, redis w !! key = Some en ->
        GoInt.min_int <= count en < GoInt.max_int ->
        attempt eb fl args w = Ok (count en + 1))
  /\ (forall en, redis w !! key = Some en ->
        count en = GoInt.max_int ->
        fst (WorkerFunc eb fl queue args w)
        = Returned (Some "ERR increment or decrement would overflow")).
Proof.
  intros Hc Hs Hi key. subst key.
  pose proof (attempt_closed_form eb fl args w) as Hatt.
  rewrite Hc, Hs, Hi in Hatt. cbn zeta in Hatt. unfold standing in Hatt.
  split; [|split].
  - intros Hk. rewrite Hk in Hatt. exact Hatt.
  - intros en Hk Hr. rewrite Hk in Hatt. rewrite Hatt.
    destruct (Z.leb_spec GoInt.min_int (count en)); [|lia].
    destruct (Z.ltb_spec (count en) GoInt.max_int); [|lia]. reflexivity.
  - intros en Hk Hmax. rewrite Hk in Hatt.
    destruct (Z.ltb_spec (count en) GoInt.max_int); [lia|].
    rewrite andb_false_r in Hatt. unfold Redis.INCR_error in Hatt.
    rewrite Hmax, Z.eqb_refl in Hatt.
    apply (WorkerFunc_attempt_err eb fl queue args w _ Hatt).
Qed.

Lemma attempt_is_next_count_witness :
  attempt failing_job no_faults [VInt 1] empty_world = Ok 0
  /\ attempt failing_job no_faults [VInt 1]
       (World {[ retryKey failing_job [VInt 1] := Entry 3 None ]} [] [])
     = Ok 4.
Proof.
  destruct (attempt_is_next_count failing_job no_faults "q" [VInt 1] empty_world)
    as (H0 & _ & _); [reflexivity..|].
  destruct (attempt_is_next_count failing_job no_faults "q" [VInt 1]
              (World {[ retryKey failing_job [VInt 1] := Entry 3 None ]} [] []))
    as (_ & H3 & _); [reflexivity..|].
  split.
  - apply H0. apply lookup_empty.
  - apply (H3 (Entry 3 None)).
    + apply lookup_singleton_eq.
    + cbn [count]. unfold GoInt.min_int, GoInt.max_int. lia.
Defined.

(** X7. An invocation reads and writes only the counter of its own key:
    every other key of the store is left as it was, on every path and
    under every fault; so the attempt number that a job with another
    key will observe is not affected by it. *)
Theorem other_counters_untouched (eb : backoff) (fl : faults)
    (queue : string) (args : list value) (w : world) :
  (forall k, k <> retryKey eb args ->
     redis (snd (WorkerFunc eb fl queue args w)) !! k = redis w !! k)
  /\ (forall eb' fl' args',
        retryKey eb' args' <> retryKey eb args ->
        attempt eb' fl' args' (snd (WorkerFunc eb fl queue args w))
        = attempt eb' fl' args' w).
Proof.
  assert (forall k, k <> retryKey eb args ->
            redis (snd (WorkerFunc eb fl queue args w)) !! k = redis w !! k)
    as Hframe.
  { intros k Hne.
    assert (redis (counted eb fl args w) !! k = redis w !! k) as Hcounted.
    { unfold counted. rewrite !Do_frame by exact Hne. reflexivity. }
    destruct (attempt eb fl args w) as [N|e] eqn:Hatt.
    - destruct (retryDelay eb N) as [d|] eqn:Hd.
      + rewrite (WorkerFunc_counted _ _ _ _ _ N d Hatt Hd). cbn zeta.
        destruct (worker eb queue args);
          [destruct (N >=? RetryLimit eb)|]; cbn [snd];
          rewrite ?submit_redis, ?Do_frame by exact Hne;
          cbn [log redis]; exact Hcounted.
      + rewrite (WorkerFunc_panicked _ _ _ _ _ N Hatt Hd). cbn [snd log redis].
        exact Hcounted.
    - revert Hatt. unfold attempt, WorkerFunc.
      destruct (GetConn fl); [reflexivity|].
      pose proof (Do_frame fl (SETNX (retryKey eb args) (-1)) w k Hne) as F1.
      destruct (Do fl (SETNX (retryKey eb args) (-1)) w) as [[r1|e1] w1];
        cbn [snd] in F1; [|intros _; exact F1].
      pose proof (Do_frame fl (INCR (retryKey eb args)) w1 k Hne) as F2.
      destruct (Do fl (INCR (retryKey eb args)) w1) as [[r2|e2] w2];
        cbn [fst snd] in *; [discriminate|].
      intros _. congruence. }
  split; [exact Hframe|].
  intros eb' fl' args' Hne. rewrite !attempt_closed_form. unfold standing.
  rewrite (Hframe _ Hne). reflexivity.
Qed.

Lemma other_counters_untouched_witness :
  redis (snd (WorkerFunc failing_job no_faults "q" [VInt 1]
                (World {[ "other" := Entry 7 None ]} [] [])))
    !! "other" = Some (Entry 7 None)
  /\ attempt failing_job no_faults [VInt 2]
       (snd (WorkerFunc failing_job no_faults "q" [VInt 1] empty_world))
     = Ok 0.
Proof.
  split.
  - rewrite (proj1 (other_counters_untouched failing_job no_faults "q" [VInt 1]
                      (World {[ "other" := Entry 7 None ]} [] [])) "other").
    + apply lookup_singleton_eq.
    + vm_compute. discriminate.
  - rewrite (proj2 (other_counters_untouched failing_job no_faults "q" [VInt 1]
                      empty_world) failing_job no_faults [VInt 2]).
    + vm_compute. reflexivity.
    + vm_compute. discriminate.
Defined.

(** X8. An invocation hands at most one job to the queue, and only when
    it returns [nil] after a failure of the wrapped job below the retry
    limit: whenever it returns an error or panics, the queue is as
    before.  The job queued has the same queue, class and arguments; it
    is immediate for a delay of zero or less, and otherwise delayed by
    the [d] seconds of the schedule, as [d * 10^9] nanoseconds whenever
    that fits a [time.Duration]. *)
Theorem queue_grows_only_on_retry (eb : backoff) (fl : faults)
    (queue : string) (args : list value) (w : world) :
  let r := WorkerFunc eb fl queue args w in
  (resque (snd r) = resque w
   \/ exists N d e,
        attempt eb fl args w = Ok N /\ worker eb queue args = Some e
        /\ N < RetryLimit eb /\ retryDelay eb N = Some d
        /\ fst r = Returned None
        /\ resque (snd r) = (resque w ++ [resubmission eb queue args d])%list)
  /\ (fst r <> Returned None -> resque (snd r) = resque w)
  /\ (forall d, d <= 0 ->
        resubmission eb queue args d = Enqueued queue (jobName eb) args)
  /\ (forall d, 0 < d <= 9223372036 ->
        resubmission eb queue args d
        = EnqueuedIn (d * Second) queue (jobName eb) args).
Proof.
  intros r.
  assert (resque (snd r) = resque w
          \/ exists N d e,
               attempt eb fl args w = Ok N /\ worker eb queue args = Some e
               /\ N < RetryLimit eb /\ retryDelay eb N = Some d
               /\ fst r = Returned None
               /\ resque (snd r)
                  = (resque w ++ [resubmission eb queue args d])%list) as Hq.
  { subst r. destruct (attempt eb fl args w) as [N|e] eqn:Hatt.
    - destruct (retryDelay eb N) as [d|] eqn:Hd.
      + rewrite (WorkerFunc_counted _ _ _ _ _ N d Hatt Hd). cbn zeta.
        destruct (worker eb queue args) as [e|] eqn:Hjob.
        * destruct (Z.geb_spec N (RetryLimit eb)); cbn [fst snd].
          -- left. rewrite Do_resque. apply expired_resque.
          -- rewrite submit_fst, submit_resque, expired_resque.
             destruct (resque_fault fl (resubmission eb queue args d)) eqn:Hf.
             ++ left. reflexivity.
             ++ right. exists N, d, e. repeat split; auto.
        * left. cbn [snd]. rewrite Do_resque. apply expired_resque.
      + left. rewrite (WorkerFunc_panicked _ _ _ _ _ N Hatt Hd).
        cbn [snd log resque]. apply counted_resque.
    - left. destruct (WorkerFunc_attempt_err eb fl queue args w e Hatt)
        as (_ & sent & _ & Hres & _). exact Hres. }
  split; [exact Hq|]. split; [|split].
  - intros Hne. destruct Hq as [Hq|(N & d & e & _ & _ & _ & _ & Hr & _)];
      [exact Hq|contradiction].
  - intros d Hd. unfold resubmission.
    destruct (Z.leb_spec d 0); [reflexivity|lia].
  - intros d Hd. unfold resubmission.
    destruct (Z.leb_spec d 0); [lia|].
    unfold GoInt.mul. rewrite wrap_in_range; [reflexivity|].
    unfold GoInt.in_range, GoInt.min_int, GoInt.max_int, Second. lia.
Qed.

Lemma queue_grows_only_on_retry_witness :
  resque (snd (WorkerFunc failing_job queue_down "q" [VInt 1] empty_world)) = []
  /\ resubmission failing_job "q" [VInt 1] (-5) = Enqueued "q" "Job" [VInt 1]
  /\ resubmission failing_job "q" [VInt 1] 60
     = EnqueuedIn 60000000000 "q" "Job" [VInt 1].
Proof.
  destruct (queue_grows_only_on_retry failing_job queue_down "q" [VInt 1]
              empty_world) as (_ & Herr & Hnow & Hlater).
  split; [|split].
  - apply Herr. vm_compute. discriminate.
  - apply Hnow. lia.
  - apply (Hlater 60). lia.
Defined.

(* ===================================================================== *)
(** ** Runs under an arbitrary retry limit, and runs that end well *)
(* ===================================================================== *)

Section AnyLimit.

Variables (eb : backoff) (queue : string) (args : list value) (e : error).
Hypothesis job_fails : worker eb queue args = Some e.
Hypothesis schedule_nonempty : BackoffStrategy eb <> [].
Hypothesis limit_is_int : RetryLimit eb <= GoInt.max_int.
Hypothesis ttl_positive :
  Forall (fun d => 0 < GoInt.add d 3600) (BackoffStrategy eb).

Local Abbreviation key := (retryKey eb args).
Local Abbreviation retries := (Z.to_nat (RetryLimit eb)).

(** The first [k] calls, for [k] up to the retry limit: none returns an
    error, and the [i]-th of them queues the resubmission of
    [retryDelay i]. *)
Lemma limit_prefix w k :
  redis w !! key = None ->
  (k <= retries)%nat ->
  exists wk subs,
    calls k eb no_faults queue args w = (repeat (Returned None) k, wk)
    /\ resque wk = (resque w ++ subs)%list
    /\ length subs = k
    /\ (forall i, (i < k)%nat ->
          exists d, retryDelay eb (Z.of_nat i) = Some d
                    /\ subs !! i = Some (resubmission eb queue args d))
    /\ counter_at (redis wk) key (Z.of_nat k - 1).
Proof.
  intros Hfresh. induction k as [|k IH]; intros Hk.
  - exists w, []. cbn [calls repeat length]. rewrite app_nil_r.
    split; [reflexivity|]. split; [reflexivity|]. split; [reflexivity|].
    split; [intros i Hi; lia|].
    unfold counter_at. rewrite Hfresh. reflexivity.
  - destruct IH as (wk & subs & Hcalls & Hq & Hlen & Hsubs & Hc); [lia|].
    destruct (retryDelay_defined eb (Z.of_nat k)) as (d & Hd & Hin);
      [lia|exact schedule_nonempty|].
    destruct (step_retry eb queue args e job_fails wk (Z.of_nat k - 1) d)
      as (w' & Hstep & Hq' & Hc').
    + exact Hc.
    + unfold GoInt.min_int, GoInt.max_int in *. lia.
    + lia.
    + replace (Z.of_nat k - 1 + 1) with (Z.of_nat k) by lia. exact Hd.
    + exact (proj1 (Forall_forall _ _) ttl_positive d Hin).
    + exists w', (subs ++ [resubmission eb queue args d])%list.
      rewrite calls_snoc, Hcalls, Hstep, repeat_snoc.
      split; [reflexivity|]. split; [rewrite Hq', Hq, app_assoc; reflexivity|].
      split; [rewrite length_app, Hlen; cbn [length]; lia|]. split.
      * intros i Hi. destruct (decide (i = k)) as [->|Hne].
        -- exists d. split; [exact Hd|].
           rewrite lookup_app_r by lia. rewrite Hlen, Nat.sub_diag. reflexivity.
        -- destruct (Hsubs i) as (di & Hdi & Hsi); [lia|].
           exists di. split; [exact Hdi|].
           rewrite lookup_app_l by lia. exact Hsi.
      * replace (Z.of_nat (S k) - 1) with (Z.of_nat k - 1 + 1) by lia.
        exact Hc'.
Qed.

End AnyLimit.

(** X9. The number of retries is set by [RetryLimit], not by the length
    of the schedule.  For any non-empty schedule with positive
    times-to-live, a job that fails on every attempt, started with no
    counter, is resubmitted exactly [RetryLimit] times (not at all for a
    limit of zero or less), the [i]-th time with the delay
    [retryDelay i], which reuses the last entry once [i] passes the end
    of the schedule; the next call returns the terminal error and
    deletes the counter. *)
Theorem retries_follow_RetryLimit (eb : backoff) (queue : string)
    (args : list value) (e : error) (w : world) :
  worker eb queue args = Some e ->
  BackoffStrategy eb <> [] ->
  RetryLimit eb <= GoInt.max_int ->
  Forall (fun d => 0 < GoInt.add d 3600) (BackoffStrategy eb) ->
  redis w !! retryKey eb args = None ->
  let n := Z.to_nat (RetryLimit eb) in
  exists w' subs,
    calls (S n) eb no_faults queue args w
    = ((repeat (Returned None) n
        ++ [Returned (Some (FailedAfter (Z.of_nat n) e))])%list, w')
    /\ resque w' = (resque w ++ subs)%list
    /\ length subs = n
    /\ (forall i, (i < n)%nat ->
          exists d, retryDelay eb (Z.of_nat i) = Some d
                    /\ subs !! i = Some (resubmission eb queue args d))
    /\ (forall i, (length (BackoffStrategy eb) <= i < n)%nat ->
          retryDelay eb (Z.of_nat i) = last (BackoffStrategy eb))
    /\ redis w' !! retryKey eb args = None.
Proof.
  intros Hjob Hne Hlim Hpos Hfresh n.
  destruct (limit_prefix eb queue args e Hjob Hne Hlim Hpos w n Hfresh)
    as (wn & subs & Hcalls & Hq & Hlen & Hsubs & Hc); [subst n; lia|].
  destruct (retryDelay_defined eb (Z.of_nat n)) as (d & Hd & _); [lia|exact Hne|].
  destruct (step_final eb queue args e Hjob wn (Z.of_nat n - 1) d)
    as (w' & Hstep & Hq' & Hk').
  - exact Hc.
  - unfold GoInt.min_int, GoInt.max_int in *. subst n. lia.
  - subst n. lia.
  - replace (Z.of_nat n - 1 + 1) with (Z.of_nat n) by lia. exact Hd.
  - exists w', subs. rewrite calls_snoc, Hcalls, Hstep.
    replace (Z.of_nat n - 1 + 1) with (Z.of_nat n) by lia.
    split; [reflexivity|]. split; [congruence|]. split; [exact Hlen|].
    split; [exact Hsubs|]. split; [|exact Hk'].
    intros i Hi. apply retryDelay_clamped. lia.
Qed.

Lemma retries_follow_RetryLimit_witness :
  exists w' subs,
    calls 4 (Backoff "Job" (fun _ _ => Some "boom") 3 [0; 5]) no_faults "q"
      [VInt 1] empty_world
    = ([Returned None; Returned None; Returned None;
        Returned (Some "Failed after 4 attempts: boom")], w')
    /\ resque w' = subs
    /\ length subs = 3%nat
    /\ retryDelay (Backoff "Job" (fun _ _ => Some "boom") 3 [0; 5]) 2 = Some 5.
Proof.
  destruct (retries_follow_RetryLimit
              (Backoff "Job" (fun _ _ => Some "boom") 3 [0; 5]) "q" [VInt 1]
              "boom" empty_world)
    as (w' & subs & Hcalls & Hq & Hlen & _ & Hlast & _).
  - reflexivity.
  - discriminate.
  - vm_compute. discriminate.
  - repeat constructor.
  - apply lookup_empty.
  - exists w', subs. split; [exact Hcalls|]. split; [exact Hq|].
    split; [exact Hlen|]. apply (Hlast 2%nat). simpl. lia.
Defined.


